(** * go-cache: a generic in-memory key-value cache with per-entry TTL

    A shallow embedding of [cache.go] and [utils.go] and the properties of
    the cache API ([Set], [Add], [Replace], [Get], [Pop], [Remove],
    [RemoveExpired], [Clear]).

    - [c.items], a Go [map[K]item[V]], is a [gmap K (item V)].
    - [time.Time] and [time.Duration] are integers (nanoseconds); the process
      clock is a sequence of readings, one per call of [time.Now()].
    - Every method body runs between [c.mu.Lock()] and [c.mu.Unlock()]; a
      method is embedded as the state transformer of its critical section. *)

From Stdlib Require Import ZArith Ascii String.
From stdpp Require Import gmap strings list fin_maps.

Local Open Scope Z_scope.

(** ** The part of package [time] that the cache uses *)

Module time.

(** An instant, in nanoseconds. *)
Definition Time : Type := Z.

(** A span, in nanoseconds; negative spans are allowed, as in Go. *)
Definition Duration : Type := Z.

(** [t.Add(d)] *)
Definition Add (t : Time) (d : Duration) : Time := t + d.

(** [t.After(u)]: whether [t] is strictly later than [u]. *)
Definition After (t u : Time) : bool := bool_decide (u < t).

(** [d * time.Second] *)
Definition Second : Duration := 1000000000.

End time.

(** ** Zero values

    Every Go type has a zero value; reading a missing key of a map yields it. *)

Class Zero (V : Type) : Type := zero : V.

#[global] Instance Z_zero : Zero Z := 0.
#[global] Instance string_zero : Zero string := EmptyString.

(** ** [fmt.Errorf] with one [%v] verb *)

Module fmt.

(** Replaces the first [%v] of [format] by [arg]. *)
Fixpoint Sprintf (format : string) (arg : string) : string :=
  match format with
  | String "%"%char (String "v"%char rest) => arg +:+ rest
  | String c rest => String c (Sprintf rest arg)
  | EmptyString => EmptyString
  end.

End fmt.

(** ** Data model *)

(** [type item[V any] struct { value V; expiry time.Time }] *)
Record item (V : Type) : Type := Item {
  value : V;
  expiry : time.Time
}.

Arguments Item {V} _ _.
Arguments value {V} _.
Arguments expiry {V} _.

#[global] Instance item_zero {V} `{Zero V} : Zero (item V) :=
  Item zero 0.

(** An [error] built by [fmt.Errorf(format, key)]. *)
Record error (K : Type) : Type := Errorf {
  err_format : string;
  err_arg : K
}.

Arguments Errorf {K} _ _.
Arguments err_format {K} _.
Arguments err_arg {K} _.

(** [e.Error()], given how [%v] prints a key. *)
Definition Error {K} (show : K → string) (e : error K) : string :=
  fmt.Sprintf (err_format e) (show (err_arg e)).

(** What a critical section can see and change: the map [c.items], and the
    clock, given as the readings that the coming calls of [time.Now()]
    return, in order. *)
Record World (K : Type) `{Countable K} (V : Type) : Type := mkWorld {
  items : gmap K (item V);
  clock : nat → time.Time
}.

Arguments mkWorld {K _ _ V} _ _.
Arguments items {K _ _ V} _.
Arguments clock {K _ _ V} _.

(** Go's monotonic clock never runs backwards. *)
Definition monotone (clk : nat → time.Time) : Prop :=
  ∀ n : nat, clk n ≤ clk (S n).

(** ** The cache *)

Section cache.

Context {K : Type} {K_eq : EqDecision K} {K_count : Countable K}
        {V : Type} {V_zero : Zero V}.

(** A computation inside a critical section. *)
Definition M (A : Type) : Type := World K V → A * World K V.

#[global] Instance M_ret : MRet M := λ A a w, (a, w).

#[global] Instance M_bind : MBind M :=
  λ A B f m w, let (a, w') := m w in f a w'.

(** The result and the final store of a computation. *)
Definition result {A} (m : M A) (w : World K V) : A := (m w).1.
Definition after {A} (m : M A) (w : World K V) : World K V := (m w).2.

(** [time.Now()] *)
Definition time_Now : M time.Time :=
  λ w, (clock w 0%nat, mkWorld (items w) (λ n, clock w (S n))).

(** [i, found := c.items[key]] *)
Definition index (key : K) : M (item V * bool) :=
  λ w, match items w !! key with
       | Some i => ((i, true), w)
       | None => ((zero, false), w)
       end.

(** utils.go: [func (i item[V]) isExpired() bool] *)
Definition isExpired (i : item V) : M bool :=
  now ← time_Now;
  mret (time.After now (expiry i)).

(** A statement that updates [c.items] in place. *)
Definition update (f : gmap K (item V) → gmap K (item V)) : M unit :=
  λ w, (tt, mkWorld (f (items w)) (clock w)).

(** utils.go: [func (c *Cache[K, V]) set(key K, data V, ttl time.Duration)] *)
Definition set (key : K) (data : V) (ttl : time.Duration) : M unit :=
  now ← time_Now;
  update (insert key (Item data (time.Add now ttl))).

(** utils.go: [func (c *Cache[K, V]) delete(key K)] *)
Definition delete (key : K) : M unit :=
  update (base.delete key).

(** [New]: the store starts empty. *)
Definition New (clk : nat → time.Time) : World K V := mkWorld ∅ clk.

(** [func (c *Cache[K, V]) Set(key K, data V, ttl time.Duration)]
    ([Set] is reserved in Rocq, hence the underscore). *)
Definition Set_ (key : K) (data : V) (ttl : time.Duration) : M unit :=
  set key data ttl.

Definition ErrAlreadyExists (key : K) : error K :=
  Errorf "item %v already exists" key.
Definition ErrExpired (key : K) : error K :=
  Errorf "item %v is expired" key.
Definition ErrNotFound (key : K) : error K :=
  Errorf "item %v doesn't exist" key.

(** [func (c *Cache[K, V]) Add(key K, data V, ttl time.Duration) error];
    [None] is Go's [nil] error. The two statements after the [if] are
    written out in each branch that falls through to them. *)
Definition Add (key : K) (data : V) (ttl : time.Duration)
  : M (option (error K)) :=
  '(i, found) ← index key;
  if found : bool then
    expired ← isExpired i;
    if expired : bool then
      delete key ;;
      set key data ttl ;;
      mret None
    else
      mret (Some (ErrAlreadyExists key))
  else
    set key data ttl ;;
    mret None.

(** [func (c *Cache[K, V]) Replace(key K, data V, ttl time.Duration) error] *)
Definition Replace (key : K) (data : V) (ttl : time.Duration)
  : M (option (error K)) :=
  '(i, found) ← index key;
  if found : bool then
    expired ← isExpired i;
    if expired : bool then
      delete key ;;
      mret (Some (ErrExpired key))
    else
      set key data ttl ;;
      mret None
  else
    mret (Some (ErrNotFound key)).

(** [func (c *Cache[K, V]) Get(key K) (V, bool)] *)
Definition Get (key : K) : M (V * bool) :=
  '(i, found) ← index key;
  if negb found then
    mret (value i, false)
  else
    expired ← isExpired i;
    if expired : bool then
      delete key ;;
      mret (value i, false)
    else
      mret (value i, true).

(** [func (c *Cache[K, V]) Pop(key K) (V, bool)] *)
Definition Pop (key : K) : M (V * bool) :=
  '(i, found) ← index key;
  if negb found then
    mret (value i, false)
  else
    delete key ;;
    expired ← isExpired i;
    if expired : bool then
      mret (value i, false)
    else
      mret (value i, true).

(** [func (c *Cache[K, V]) Remove(key K)] *)
Definition Remove (key : K) : M unit := delete key.

(** The first loop of [RemoveExpired]:
    [for key, i := range c.items { if i.isExpired() { expiredKeys = append(expiredKeys, key) } }],
    over the entries in the order in which [range] yields them. *)
Fixpoint collect (entries : list (K * item V)) (expiredKeys : list K)
  : M (list K) :=
  match entries with
  | [] => mret expiredKeys
  | (key, i) :: rest =>
      expired ← isExpired i;
      collect rest (if expired : bool then expiredKeys ++ [key]
                    else expiredKeys)
  end.

(** The second loop: [for _, key := range expiredKeys { c.delete(key) }]. *)
Fixpoint delete_each (expiredKeys : list K) : M unit :=
  match expiredKeys with
  | [] => mret tt
  | key :: rest => delete key ;; delete_each rest
  end.

(** [RemoveExpired] when [range c.items] yields [entries]. Go leaves the
    iteration order of a map unspecified, so the order is an argument. *)
Definition RemoveExpired_in (entries : list (K * item V)) : M unit :=
  expiredKeys ← collect entries [];
  delete_each expiredKeys.

(** [func (c *Cache[K, V]) RemoveExpired()], in the order of [map_to_list]. *)
Definition RemoveExpired : M unit :=
  λ w, RemoveExpired_in (map_to_list (items w)) w.

(** One tick of the goroutine started by [New]: the same two loops. *)
Definition sweep_tick : M unit := RemoveExpired.

(** The body of the goroutine's loop in [New], when [range c.items] yields
    the entries of the map [m] in the order [order m]. *)
Definition sweep_with (order : gmap K (item V) → list (K * item V))
  : M unit :=
  λ w, RemoveExpired_in (order (items w)) w.

(** The goroutine that [New] starts,
    [for range time.Tick(cleanupInterval) { ... }], cut after [n] ticks;
    [range j] is the order in which tick [j] iterates over the map. *)
Fixpoint sweeper (range : nat → gmap K (item V) → list (K * item V))
  (n : nat) : M unit :=
  match n with
  | O => mret tt
  | S n' => sweep_with (range 0%nat) ;; sweeper (λ j, range (S j)) n'
  end.

(** [func (c *Cache[K, V]) Clear()]: the builtin [clear(c.items)]. *)
Definition Clear : M unit :=
  update (λ _, ∅).

(** *** Notions used to state the properties *)

(** The world after one call of [time.Now()]. *)
Definition tick (w : World K V) : World K V := after time_Now w.

(** The verdict of [i.isExpired()] when it is called in [w]. *)
Definition expired_at (w : World K V) (i : item V) : bool :=
  result (isExpired i) w.

(** The three states of a key of the spec's state machine, as the code
    tells them apart: by the map lookup, then by [isExpired]. *)
Inductive key_state : Type :=
| ABSENT
| EXPIRED (i : item V)
| LIVE (i : item V).

Definition state_of (w : World K V) (key : K) : key_state :=
  match items w !! key with
  | None => ABSENT
  | Some i => if expired_at w i then EXPIRED i else LIVE i
  end.

(** What the first loop appends, as a function of the clock alone: the
    entry at position [j] of the iteration meets the [j]-th reading. *)
Fixpoint found_expired (clk : nat → time.Time) (entries : list (K * item V))
  : list K :=
  match entries with
  | [] => []
  | (key, i) :: rest =>
      (if time.After (clk 0%nat) (expiry i) then [key] else [])
      ++ found_expired (λ n, clk (S n)) rest
  end.

End cache.

Arguments key_state : clear implicits.

(** ** Concrete caches, built as the tests build them: [New[string, int]] *)

(** A clock that reads [t] at every call: no time passes between calls. *)
Definition frozen (t : time.Time) : nat → time.Time := λ _, t.

(** A clock that reads [t], [t + 1], [t + 2], ...: one nanosecond passes
    between two calls. *)
Definition running (t : time.Time) : nat → time.Time := λ n, t + Z.of_nat n.

(** A clock whose first readings are [ts] and that reads [t] from then on. *)
Definition readings (ts : list time.Time) (t : time.Time) : nat → time.Time :=
  λ n, default t (ts !! n).

(** [c.Set("key1", 100, 5*time.Second)] at instant 0, then
    [time.Sleep(6 * time.Second)]. *)
Definition w_dead : World string Z :=
  after (Set_ "key1" 100 (5 * time.Second))
        (New (readings [0] (6 * time.Second))).

(** [c.Set("key1", 100, 5*time.Second)] at instant 0, no sleep. *)
Definition w_live : World string Z :=
  after (Set_ "key1" 100 (5 * time.Second)) (New (running 0)).

(** [c.Set("key1", 500, 1*time.Second)] and
    [c.Set("key2", 600, 10*time.Second)] at instant 0, then a sleep that
    ends when the clock shows one second. *)
Definition w_two : World string Z :=
  after (Set_ "key2" 600 (10 * time.Second))
        (after (Set_ "key1" 500 (1 * time.Second))
               (New (readings [0; 0] (1 * time.Second)))).

(** cache_test.go, [TestCacheSetAndGet]: the three conditions that the test
    requires, in order; a [time.Sleep] is a jump in the clock readings. *)
Definition TestCacheSetAndGet : M (K := string) (V := Z) (list bool) :=
  Set_ "key1" 10 (0 * time.Second);;
  '(_, found1) ← Get "key1";
  Set_ "key2" 10 (5 * time.Second);;
  '(value2, found2) ← Get "key2";
  '(_, found3) ← Get "key2";
  mret [negb found1; found2 && bool_decide (value2 = 10); negb found3].

(** cache_test.go, [TestCacheAdd] *)
Definition TestCacheAdd : M (K := string) (V := Z) (list bool) :=
  err1 ← Add "key1" 20 (5 * time.Second);
  err2 ← Add "key1" 30 (5 * time.Second);
  err3 ← Add "key1" 30 (5 * time.Second);
  mret [bool_decide (err1 = None); bool_decide (err2 ≠ None);
        bool_decide (err3 = None)].

(** cache_test.go, [TestCacheReplace] *)
Definition TestCacheReplace : M (K := string) (V := Z) (list bool) :=
  err1 ← Replace "key1" 50 (5 * time.Second);
  Set_ "key1" 40 (5 * time.Second);;
  err2 ← Replace "key1" 50 (5 * time.Second);
  '(value, found) ← Get "key1";
  err3 ← Replace "key1" 60 (5 * time.Second);
  mret [bool_decide (err1 ≠ None); bool_decide (err2 = None);
        found && bool_decide (value = 50); bool_decide (err3 ≠ None)].

(** cache_test.go, [TestCachePop] *)
Definition TestCachePop : M (K := string) (V := Z) (list bool) :=
  Set_ "key1" 100 (5 * time.Second);;
  '(value, found1) ← Pop "key1";
  '(_, found2) ← Pop "key1";
  mret [found1 && bool_decide (value = 100); negb found2].

(** cache_test.go, [TestCacheRemove] *)
Definition TestCacheRemove : M (K := string) (V := Z) (list bool) :=
  Set_ "key1" 200 (5 * time.Second);;
  Remove "key1";;
  '(_, found) ← Get "key1";
  mret [negb found].

(** cache_test.go, [TestCacheClear] *)
Definition TestCacheClear : M (K := string) (V := Z) (list bool) :=
  Set_ "key1" 300 (5 * time.Second);;
  Set_ "key2" 400 (5 * time.Second);;
  Clear;;
  '(_, found1) ← Get "key1";
  '(_, found2) ← Get "key2";
  mret [negb found1; negb found2].

(** cache_test.go, [TestCacheRemoveExpired] *)
Definition TestCacheRemoveExpired : M (K := string) (V := Z) (list bool) :=
  Set_ "key1" 500 (1 * time.Second);;
  Set_ "key2" 600 (10 * time.Second);;
  RemoveExpired;;
  '(_, found1) ← Get "key1";
  '(value2, found2) ← Get "key2";
  mret [negb found1; found2 && bool_decide (value2 = 600)].

(** ** Running a critical section *)

Section run.

Context {K : Type} {K_eq : EqDecision K} {K_count : Countable K}
        {V : Type} {V_zero : Zero V}.

Implicit Types (w : World K V) (key : K) (i : item V) (data : V).

Lemma bind_run {A B} (m : M A) (f : A → M B) w :
  (m ≫= f) w = f (m w).1 (m w).2.
Proof. unfold mbind, M_bind. by destruct (m w). Qed.

Lemma isExpired_run i w :
  isExpired i w = (time.After (clock w 0%nat) (expiry i), tick w).
Proof. reflexivity. Qed.

Lemma items_tick w : items (tick w) = items w.
Proof. reflexivity. Qed.

Lemma clock_tick w n : clock (tick w) n = clock w (S n).
Proof. reflexivity. Qed.

Lemma index_Some w key i :
  items w !! key = Some i → index key w = ((i, true), w).
Proof. unfold index. by intros ->. Qed.

Lemma index_None w key :
  items w !! key = None → index key w = ((zero, false), w).
Proof. unfold index. by intros ->. Qed.

Lemma delete_run key w :
  delete key w = (tt, mkWorld (base.delete key (items w)) (clock w)).
Proof. reflexivity. Qed.

(** [isExpired] compares strictly: an item is expired once the clock
    reads later than its expiry. *)
Lemma expired_at_true w i : expired_at w i = true ↔ expiry i < clock w 0%nat.
Proof.
  unfold expired_at, result. rewrite isExpired_run. simpl.
  unfold time.After. apply bool_decide_eq_true.
Qed.

Lemma expired_at_false w i : expired_at w i = false ↔ clock w 0%nat ≤ expiry i.
Proof.
  unfold expired_at, result. rewrite isExpired_run. simpl.
  unfold time.After. rewrite bool_decide_eq_false. lia.
Qed.

End run.

(** ** The operations, case by case *)

Section operations.

Context {K : Type} {K_eq : EqDecision K} {K_count : Countable K}
        {V : Type} {V_zero : Zero V}.

Implicit Types (w : World K V) (key : K) (i : item V) (data : V).

Lemma state_of_ABSENT w key :
  state_of w key = ABSENT ↔ items w !! key = None.
Proof.
  unfold state_of. destruct (items w !! key) as [i|]; [|done].
  by destruct (expired_at w i).
Qed.

Lemma state_of_EXPIRED w key i :
  state_of w key = EXPIRED i ↔
  items w !! key = Some i ∧ expiry i < clock w 0%nat.
Proof.
  rewrite <- expired_at_true. unfold state_of.
  destruct (items w !! key) as [j|]; [|by split; [|intros []]].
  destruct (expired_at w j) eqn:E; split.
  - by intros [= ->].
  - by intros [[= ->] _].
  - done.
  - intros [[= ->] E']. congruence.
Qed.

Lemma state_of_LIVE w key i :
  state_of w key = LIVE i ↔
  items w !! key = Some i ∧ clock w 0%nat ≤ expiry i.
Proof.
  rewrite <- expired_at_false. unfold state_of.
  destruct (items w !! key) as [j|]; [|by split; [|intros []]].
  destruct (expired_at w j) eqn:E; split.
  - done.
  - intros [[= ->] E']. congruence.
  - by intros [= ->].
  - by intros [[= ->] _].
Qed.

(** *** [Get] *)

Lemma Get_absent w key :
  items w !! key = None → Get key w = ((zero, false), w).
Proof.
  intros E. unfold Get. rewrite bind_run, (index_None _ _ E). reflexivity.
Qed.

Lemma Get_found w key i :
  items w !! key = Some i →
  Get key w =
    if expired_at w i
    then ((value i, false), after (delete key) (tick w))
    else ((value i, true), tick w).
Proof.
  intros E. unfold Get. rewrite bind_run, (index_Some _ _ _ E). simpl.
  rewrite bind_run. fold (expired_at w i).
  unfold expired_at, result, after. rewrite isExpired_run. simpl.
  by destruct (time.After _ _).
Qed.

(** *** [Pop] *)

Lemma Pop_absent w key :
  items w !! key = None → Pop key w = ((zero, false), w).
Proof.
  intros E. unfold Pop. rewrite bind_run, (index_None _ _ E). reflexivity.
Qed.

Lemma Pop_found w key i :
  items w !! key = Some i →
  Pop key w =
    ((value i, negb (expired_at w i)), tick (after (delete key) w)).
Proof.
  intros E. unfold Pop. rewrite bind_run, (index_Some _ _ _ E). simpl.
  rewrite bind_run, delete_run. simpl. rewrite bind_run, isExpired_run. simpl.
  unfold expired_at, result. rewrite isExpired_run. simpl.
  by destruct (time.After _ _).
Qed.

(** *** [Add] *)

Lemma Add_absent w key data ttl :
  items w !! key = None →
  Add key data ttl w = (None, after (Set_ key data ttl) w).
Proof.
  intros E. unfold Add. rewrite bind_run, (index_None _ _ E). reflexivity.
Qed.

Lemma Add_found w key i data ttl :
  items w !! key = Some i →
  Add key data ttl w =
    if expired_at w i
    then (None, after (Set_ key data ttl) (after (delete key) (tick w)))
    else (Some (ErrAlreadyExists key), tick w).
Proof.
  intros E. unfold Add. rewrite bind_run, (index_Some _ _ _ E). simpl.
  rewrite bind_run. unfold expired_at, result. rewrite isExpired_run. simpl.
  by destruct (time.After _ _).
Qed.

(** *** [Replace] *)

Lemma Replace_absent w key data ttl :
  items w !! key = None →
  Replace key data ttl w = (Some (ErrNotFound key), w).
Proof.
  intros E. unfold Replace. rewrite bind_run, (index_None _ _ E). reflexivity.
Qed.

Lemma Replace_found w key i data ttl :
  items w !! key = Some i →
  Replace key data ttl w =
    if expired_at w i
    then (Some (ErrExpired key), after (delete key) (tick w))
    else (None, after (Set_ key data ttl) (tick w)).
Proof.
  intros E. unfold Replace. rewrite bind_run, (index_Some _ _ _ E). simpl.
  rewrite bind_run. unfold expired_at, result. rewrite isExpired_run. simpl.
  by destruct (time.After _ _).
Qed.

(** *** [Set], [Remove], [Clear] *)

Lemma items_Set w key data ttl :
  items (after (Set_ key data ttl) w) =
    <[key := Item data (time.Add (clock w 0%nat) ttl)]> (items w).
Proof. reflexivity. Qed.

Lemma clock_Set w key data ttl :
  clock (after (Set_ key data ttl) w) = clock (tick w).
Proof. reflexivity. Qed.

Lemma items_delete w key :
  items (after (delete key) w) = base.delete key (items w).
Proof. reflexivity. Qed.

Lemma items_Remove w key :
  items (after (Remove key) w) = base.delete key (items w).
Proof. reflexivity. Qed.

Lemma items_Clear w : items (after Clear w) = ∅.
Proof. reflexivity. Qed.

End operations.

(** ** Reads: [Get] and [Pop] *)

Section reads.

Context {K : Type} {K_eq : EqDecision K} {K_count : Countable K}
        {V : Type} {V_zero : Zero V}.

Implicit Types (w : World K V) (key : K) (i : item V) (data : V).

(** C10. On a key with no entry, [Get] and [Pop] return the zero value of
    [V] with [found = false] and leave the store as it is (they do not even
    read the clock). *)
Theorem Get_Pop_absent w key :
  items w !! key = None →
  Get key w = ((zero, false), w) ∧ Pop key w = ((zero, false), w).
Proof.
  intros E. split; [by apply Get_absent | by apply Pop_absent].
Qed.

(** C6. On a key whose entry [isExpired] finds live, [Get] returns the
    stored value with [found = true]; the map is the same afterwards, so
    the entry keeps its value and its expiry and no other key changes. *)
Theorem Get_live w key i :
  items w !! key = Some i →
  expired_at w i = false →
  result (Get key) w = (value i, true)
  ∧ items (after (Get key) w) = items w
  ∧ items (after (Get key) w) !! key = Some i.
Proof.
  intros E L. unfold result, after. rewrite (Get_found _ _ _ E), L.
  cbn [fst snd]. rewrite items_tick. done.
Qed.

(** C5. Whatever the state of [key] before, it has no entry after
    [Pop key], and a [Get key] that follows returns not-found. *)
Theorem Pop_leaves_absent w key :
  items (after (Pop key) w) !! key = None
  ∧ result (Get key) (after (Pop key) w) = (zero, false).
Proof.
  assert (items (after (Pop key) w) !! key = None) as E.
  { unfold after. destruct (items w !! key) as [i|] eqn:E.
    - rewrite (Pop_found _ _ _ E). simpl. apply lookup_delete_eq.
    - by rewrite (Pop_absent _ _ E). }
  split; [done|]. unfold result. by rewrite (Get_absent _ _ E).
Qed.

(** C8. After [Clear] the map is empty, and [Get] returns not-found on
    every key. *)
Theorem Clear_empties w :
  items (after Clear w) = ∅
  ∧ ∀ key, result (Get key) (after Clear w) = (zero, false).
Proof.
  split; [reflexivity|]. intros key. unfold result.
  rewrite Get_absent; [done|]. rewrite items_Clear. apply lookup_empty.
Qed.

End reads.

(** [Get_Pop_absent] at a key that was never set. *)
Lemma Get_Pop_absent_witness :
  items w_live !! "key2" = None
  ∧ Get "key2" w_live = ((0, false), w_live)
  ∧ Pop "key2" w_live = ((0, false), w_live).
Proof.
  assert (items w_live !! "key2" = None) as E by reflexivity.
  split; [exact E | exact (Get_Pop_absent w_live "key2" E)].
Defined.

(** [Get_live] just after [Set("key1", 100, 5s)]. *)
Lemma Get_live_witness :
  result (Get "key1") w_live = (100, true)
  ∧ items (after (Get "key1") w_live) = items w_live
  ∧ items (after (Get "key1") w_live) !! "key1" = Some (Item 100 (5 * time.Second)).
Proof.
  apply (Get_live w_live "key1" (Item 100 (5 * time.Second))); reflexivity.
Defined.

(** ** Conditional writes: [Add] and [Replace] *)

Section writes.

Context {K : Type} {K_eq : EqDecision K} {K_count : Countable K}
        {V : Type} {V_zero : Zero V}.

Implicit Types (w : World K V) (key : K) (i : item V) (data : V).

(** The three errors carry three different formats and the key. *)
Lemma errors_distinct key key' :
  ErrAlreadyExists key ≠ ErrExpired key'
  ∧ ErrAlreadyExists key ≠ ErrNotFound key'
  ∧ ErrExpired key ≠ ErrNotFound key'.
Proof. repeat split; discriminate. Qed.

Lemma errors_name_key (show : K → string) key :
  Error show (ErrAlreadyExists key) = "item " +:+ show key +:+ " already exists"
  ∧ Error show (ErrExpired key) = "item " +:+ show key +:+ " is expired"
  ∧ Error show (ErrNotFound key) = "item " +:+ show key +:+ " doesn't exist".
Proof. repeat split. Qed.

(** Writing over an entry and writing after deleting it give the same map. *)
Lemma Set_after_delete w key data ttl :
  items (after (Set_ key data ttl) (after (delete key) w)) =
  items (after (Set_ key data ttl) w).
Proof. rewrite !items_Set, items_delete. apply insert_delete_eq. Qed.

(** [Add], by the state that the code itself finds the key in: it fails
    with the already-exists error, whose message names the key, exactly when
    the key holds an entry that [isExpired] finds live, and then the map is
    unchanged. On a key with no entry it is [Set]. On a key with an entry that
    [isExpired] finds expired it deletes the entry and then runs [set]: the
    result is the map that [Set] gives, with the expiry counted from the
    clock reading that [set] takes. *)
Theorem Add_spec w key data ttl :
  (result (Add key data ttl) w = Some (ErrAlreadyExists key)
     ↔ ∃ i, state_of w key = LIVE i)
  ∧ (∀ show, Error show (ErrAlreadyExists key)
             = "item " +:+ show key +:+ " already exists")
  ∧ match state_of w key with
    | LIVE _ =>
        items (after (Add key data ttl) w) = items w
    | EXPIRED _ =>
        result (Add key data ttl) w = None
        ∧ after (Add key data ttl) w
          = after (Set_ key data ttl) (after (delete key) (tick w))
        ∧ items (after (Add key data ttl) w)
          = items (after (Set_ key data ttl) (tick w))
        ∧ items (after (Add key data ttl) w)
          = <[key := Item data (time.Add (clock w 1%nat) ttl)]> (items w)
    | ABSENT =>
        result (Add key data ttl) w = None
        ∧ after (Add key data ttl) w = after (Set_ key data ttl) w
        ∧ items (after (Add key data ttl) w)
          = <[key := Item data (time.Add (clock w 0%nat) ttl)]> (items w)
    end.
Proof.
  split; [|split; [done|]]; unfold state_of, result, after.
  - destruct (items w !! key) as [i|] eqn:E.
    + rewrite (Add_found _ _ _ _ _ E).
      destruct (expired_at w i); cbn [fst]; split; try done.
      * by intros [? [=]].
      * by exists i.
    + rewrite (Add_absent _ _ _ _ E). cbn [fst]. split; [done|by intros [? [=]]].
  - destruct (items w !! key) as [i|] eqn:E.
    + rewrite (Add_found _ _ _ _ _ E).
      destruct (expired_at w i); cbn [fst snd]; [|by rewrite items_tick].
      split; [done|]. split; [done|].
      rewrite Set_after_delete. split; [done|].
      by rewrite items_Set, items_tick, clock_tick.
    + by rewrite (Add_absent _ _ _ _ E).
Qed.

(** [Replace], by the state that the code itself finds the key in: on a
    key with no entry it fails with the not-found error and changes nothing.
    On a key whose entry [isExpired] finds expired, it deletes that entry,
    writes nothing (no other key changes and the key is absent afterwards)
    and fails with the expired error. On a key whose entry [isExpired] finds
    live it succeeds and leaves the map that [Set] gives. Each error message
    names the key. *)
Theorem Replace_trichotomy w key data ttl :
  (∀ show,
     Error show (ErrNotFound key) = "item " +:+ show key +:+ " doesn't exist"
     ∧ Error show (ErrExpired key) = "item " +:+ show key +:+ " is expired")
  ∧ match state_of w key with
    | ABSENT =>
        Replace key data ttl w = (Some (ErrNotFound key), w)
    | EXPIRED _ =>
        result (Replace key data ttl) w = Some (ErrExpired key)
        ∧ items (after (Replace key data ttl) w) = base.delete key (items w)
        ∧ items (after (Replace key data ttl) w) !! key = None
    | LIVE _ =>
        result (Replace key data ttl) w = None
        ∧ after (Replace key data ttl) w = after (Set_ key data ttl) (tick w)
        ∧ items (after (Replace key data ttl) w)
          = <[key := Item data (time.Add (clock w 1%nat) ttl)]> (items w)
    end.
Proof.
  split; [done|]. unfold state_of, result, after.
  destruct (items w !! key) as [i|] eqn:E.
  - rewrite (Replace_found _ _ _ _ _ E).
    destruct (expired_at w i); cbn [fst snd].
    + rewrite items_delete, items_tick. split; [done|]. split; [done|].
      apply lookup_delete_eq.
    + split; [done|]. split; [done|].
      by rewrite items_Set, items_tick, clock_tick.
  - by rewrite (Replace_absent _ _ _ _ E).
Qed.

(** [Add] and [Replace] in terms of the clock, away from the instant of
    expiry: an entry whose expiry is later than the clock reading is live for
    both, an entry whose expiry is earlier is expired for both. *)
Lemma Add_by_clock w key i data ttl :
  items w !! key = Some i →
  (clock w 0%nat < expiry i →
     result (Add key data ttl) w = Some (ErrAlreadyExists key)
     ∧ items (after (Add key data ttl) w) = items w)
  ∧ (expiry i < clock w 0%nat →
     result (Add key data ttl) w = None
     ∧ items (after (Add key data ttl) w)
       = <[key := Item data (time.Add (clock w 1%nat) ttl)]> (items w)).
Proof.
  intros E. unfold result, after. rewrite (Add_found _ _ _ _ _ E). split.
  - intros Hlt. assert (expired_at w i = false) as ->
      by (apply expired_at_false; lia).
    cbn [fst snd]. by rewrite items_tick.
  - intros Hlt. assert (expired_at w i = true) as ->
      by by apply expired_at_true.
    cbn [fst snd]. split; [done|].
    by rewrite Set_after_delete, items_Set, items_tick, clock_tick.
Qed.

Lemma Replace_by_clock w key i data ttl :
  items w !! key = Some i →
  (clock w 0%nat < expiry i →
     result (Replace key data ttl) w = None
     ∧ items (after (Replace key data ttl) w)
       = <[key := Item data (time.Add (clock w 1%nat) ttl)]> (items w))
  ∧ (expiry i < clock w 0%nat →
     result (Replace key data ttl) w = Some (ErrExpired key)
     ∧ items (after (Replace key data ttl) w) = base.delete key (items w)).
Proof.
  intros E. unfold result, after. rewrite (Replace_found _ _ _ _ _ E). split.
  - intros Hlt. assert (expired_at w i = false) as ->
      by (apply expired_at_false; lia).
    cbn [fst snd]. split; [done|].
    by rewrite items_Set, items_tick, clock_tick.
  - intros Hlt. assert (expired_at w i = true) as ->
      by by apply expired_at_true.
    cbn [fst snd]. split; [done|]. by rewrite items_delete, items_tick.
Qed.

End writes.

(** [Add_spec] on a live key: the second [Add] of [TestCacheAdd]. *)
Lemma Add_spec_witness :
  state_of w_live "key1" = LIVE (Item 100 (5 * time.Second))
  ∧ result (Add "key1" 30 (5 * time.Second)) w_live
    = Some (ErrAlreadyExists "key1")
  ∧ items (after (Add "key1" 30 (5 * time.Second)) w_live) = items w_live.
Proof.
  split; [reflexivity|]. split.
  - apply (Add_spec w_live "key1" 30 (5 * time.Second)).
    exists (Item 100 (5 * time.Second)). reflexivity.
  - exact (proj2 (proj2 (Add_spec w_live "key1" 30 (5 * time.Second)))).
Defined.

(** [Replace_trichotomy] on an expired key: the last [Replace] of
    [TestCacheReplace]. *)
Lemma Replace_trichotomy_witness :
  state_of w_dead "key1" = EXPIRED (Item 100 (5 * time.Second))
  ∧ result (Replace "key1" 60 (5 * time.Second)) w_dead
    = Some (ErrExpired "key1")
  ∧ items (after (Replace "key1" 60 (5 * time.Second)) w_dead)
    = base.delete "key1" (items w_dead)
  ∧ items (after (Replace "key1" 60 (5 * time.Second)) w_dead) !! "key1" = None.
Proof.
  split; [reflexivity|].
  exact (proj2 (Replace_trichotomy w_dead "key1" 60 (5 * time.Second))).
Defined.

(** ** Expiry: [isExpired], zero and negative TTLs, [RemoveExpired] *)

Section expiry.

Context {K : Type} {K_eq : EqDecision K} {K_count : Countable K}
        {V : Type} {V_zero : Zero V}.

Implicit Types (w : World K V) (key : K) (i : item V) (data : V).
Implicit Types (entries : list (K * item V)) (clk : nat → time.Time).

Lemma monotone_le clk (n m : nat) :
  monotone clk → (n ≤ m)%nat → clk n ≤ clk m.
Proof.
  intros Hm Hle. induction Hle as [|m Hle IH]; [lia|].
  specialize (Hm m). lia.
Qed.

Lemma monotone_frozen t : monotone (frozen t).
Proof. intros n. unfold frozen. lia. Qed.

Lemma monotone_running t : monotone (running t).
Proof. intros n. unfold running. lia. Qed.

(** On an expired entry [Get] deletes the entry and reports not-found;
    the value it returns next to [false] is the stored one. *)
Lemma Get_expired w key i :
  items w !! key = Some i →
  expired_at w i = true →
  result (Get key) w = (value i, false)
  ∧ items (after (Get key) w) = base.delete key (items w).
Proof.
  intros E X. unfold result, after. by rewrite (Get_found _ _ _ E), X.
Qed.

(** The same for [Pop]. *)
Lemma Pop_expired w key i :
  items w !! key = Some i →
  expired_at w i = true →
  result (Pop key) w = (value i, false)
  ∧ items (after (Pop key) w) = base.delete key (items w).
Proof.
  intros E X. unfold result, after. by rewrite (Pop_found _ _ _ E), X.
Qed.

(** [Set] reads the clock once and [Get] once more: the entry is found
    unless the second reading is later than the first plus [ttl]. *)
Lemma Get_after_Set w key data ttl :
  result (Get key) (after (Set_ key data ttl) w)
  = (data, bool_decide (clock w 1%nat ≤ clock w 0%nat + ttl)).
Proof.
  unfold result.
  rewrite (Get_found _ key (Item data (time.Add (clock w 0%nat) ttl)));
    [|rewrite items_Set; apply lookup_insert_eq].
  unfold expired_at, result. rewrite isExpired_run. cbn [fst expiry value].
  rewrite clock_Set, clock_tick. unfold time.After, time.Add.
  case_bool_decide; case_bool_decide; (done || lia).
Qed.

(** Within its TTL the entry is read back with its value. *)
Lemma Get_after_Set_live w key data ttl :
  clock w 1%nat ≤ clock w 0%nat + ttl →
  result (Get key) (after (Set_ key data ttl) w) = (data, true).
Proof.
  intros Hle. rewrite Get_after_Set. by rewrite bool_decide_eq_true_2.
Qed.

(** Past its TTL it is not. *)
Lemma Get_after_Set_late w key data ttl :
  clock w 0%nat + ttl < clock w 1%nat →
  (result (Get key) (after (Set_ key data ttl) w)).2 = false.
Proof.
  intros Hlt. rewrite Get_after_Set. cbn [snd].
  apply bool_decide_eq_false. lia.
Qed.

(** A negative TTL is never read back as found. *)
Lemma Get_after_Set_negative w key data ttl :
  monotone (clock w) → ttl < 0 →
  (result (Get key) (after (Set_ key data ttl) w)).2 = false.
Proof.
  intros Hm Hneg. rewrite Get_after_Set. cbn [snd].
  apply bool_decide_eq_false. specialize (Hm 0%nat). lia.
Qed.

(** A zero TTL is read back as found exactly when the clock shows the same
    instant at both calls. *)
Lemma Get_after_Set_zero w key data :
  monotone (clock w) →
  (result (Get key) (after (Set_ key data 0) w)).2 = true
  ↔ clock w 1%nat = clock w 0%nat.
Proof.
  intros Hm. rewrite Get_after_Set. cbn [snd].
  rewrite bool_decide_eq_true. specialize (Hm 0%nat). lia.
Qed.

End expiry.

(** ** The sweep: [RemoveExpired] and the background tick *)

Section sweep.

Context {K : Type} {K_eq : EqDecision K} {K_count : Countable K}
        {V : Type} {V_zero : Zero V}.

Implicit Types (w : World K V) (key : K) (i : item V).
Implicit Types (entries : list (K * item V)) (clk : nat → time.Time).

(** The first loop only reads: it returns the keys of [found_expired],
    appended to what it was given, and leaves the map alone. *)
Lemma collect_result entries : ∀ acc w,
  result (collect entries acc) w = acc ++ found_expired (clock w) entries.
Proof.
  induction entries as [|[key i] rest IH]; intros acc w.
  - unfold result. simpl. by rewrite app_nil_r.
  - unfold result in *. cbn [collect found_expired].
    rewrite bind_run, isExpired_run. cbn [fst snd]. rewrite IH.
    destruct (time.After _ _); by rewrite <- ?app_assoc.
Qed.

Lemma collect_items entries : ∀ acc w,
  items (after (collect entries acc) w) = items w.
Proof.
  induction entries as [|[key i] rest IH]; intros acc w; [done|].
  unfold after in *. cbn [collect].
  rewrite bind_run, isExpired_run. cbn [fst snd]. by rewrite IH.
Qed.

(** The second loop deletes the listed keys and no other. *)
Lemma delete_each_lookup (keys : list K) : ∀ w key,
  items (after (delete_each keys) w) !! key
  = if decide (key ∈ keys) then None else items w !! key.
Proof.
  induction keys as [|k rest IH]; intros w key.
  - cbn. by rewrite decide_False by apply not_elem_of_nil.
  - unfold after in *. cbn [delete_each].
    rewrite bind_run, delete_run. cbn [fst snd]. rewrite IH. cbn [items].
    destruct (decide (key = k)) as [->|Hne].
    + rewrite lookup_delete_eq.
      rewrite (decide_True (P := k ∈ k :: rest)) by apply list_elem_of_here.
      by destruct (decide (k ∈ rest)).
    + rewrite lookup_delete_ne by done.
      destruct (decide (key ∈ rest)) as [Hin|Hnin].
      * by rewrite decide_True by by apply list_elem_of_further.
      * rewrite decide_False; [done|].
        by intros [?|?]%elem_of_cons.
Qed.

(** A key is collected when its entry, at its position in the iteration,
    has an expiry earlier than the clock reading taken there. *)
Lemma elem_of_found_expired entries : ∀ clk key,
  key ∈ found_expired clk entries
  ↔ ∃ (j : nat) i, entries !! j = Some (key, i) ∧ expiry i < clk j.
Proof.
  induction entries as [|[k i] rest IH]; intros clk key.
  - cbn. split; [by intros ?%not_elem_of_nil|]. by intros (j & ? & ? & _).
  - cbn [found_expired]. rewrite elem_of_app, IH. unfold time.After. split.
    + intros [Hhd|(j & i' & Hj & Hlt)].
      * case_bool_decide; [|by apply not_elem_of_nil in Hhd].
        apply list_elem_of_singleton in Hhd as ->. by exists 0%nat, i.
      * by exists (S j), i'.
    + intros ([|j] & i' & Hj & Hlt).
      * left. cbn in Hj. injection Hj as -> ->.
        rewrite bool_decide_eq_true_2 by done. apply list_elem_of_here.
      * right. by exists j, i'.
Qed.

Lemma RemoveExpired_in_lookup entries w key :
  items (after (RemoveExpired_in entries) w) !! key
  = if decide (key ∈ found_expired (clock w) entries) then None
    else items w !! key.
Proof.
  unfold after, RemoveExpired_in. rewrite bind_run.
  pose proof (delete_each_lookup (result (collect entries []) w)
                (after (collect entries []) w) key) as E.
  unfold after, result in E. rewrite E.
  pose proof (collect_result entries [] w) as R. unfold result in R.
  rewrite R. cbn [app].
  pose proof (collect_items entries [] w) as I. unfold after in I.
  by rewrite I.
Qed.

(** What [RemoveExpired] does, whatever order [range] picks: while the
    clock does not run backwards, an entry whose expiry is earlier than the
    first reading of the scan is deleted, an entry whose expiry is not
    earlier than the last reading is kept as it is, and no key appears. *)
Lemma RemoveExpired_in_spec entries w key :
  entries ≡ₚ map_to_list (items w) →
  monotone (clock w) →
  match items w !! key with
  | None => items (after (RemoveExpired_in entries) w) !! key = None
  | Some i =>
      (expiry i < clock w 0%nat →
         items (after (RemoveExpired_in entries) w) !! key = None)
      ∧ (clock w (length entries) ≤ expiry i →
         items (after (RemoveExpired_in entries) w) !! key = Some i)
  end.
Proof.
  intros Hperm Hmono. rewrite RemoveExpired_in_lookup.
  assert (∀ k i, (k, i) ∈ entries ↔ items w !! k = Some i) as Hin.
  { intros k i. rewrite Hperm. apply elem_of_map_to_list. }
  destruct (items w !! key) as [i|] eqn:E; [|by case_decide].
  split.
  - intros Hlt. rewrite decide_True; [done|].
    apply elem_of_found_expired.
    apply Hin, list_elem_of_lookup in E as [j Hj].
    exists j, i. split; [done|].
    pose proof (monotone_le (clock w) 0 j Hmono). lia.
  - intros Hle. rewrite decide_False; [done|].
    intros (j & i' & Hj & Hlt)%elem_of_found_expired.
    assert (i' = i) as ->.
    { apply list_elem_of_lookup_2, Hin in Hj. congruence. }
    apply lookup_lt_Some in Hj.
    pose proof (monotone_le (clock w) j (length entries) Hmono). lia.
Qed.

(** When the clock reads [t] during the whole scan, [RemoveExpired] keeps
    exactly the entries with [t ≤ expiry]. *)
Lemma RemoveExpired_in_frozen entries w t :
  entries ≡ₚ map_to_list (items w) →
  clock w = frozen t →
  items (after (RemoveExpired_in entries) w)
  = filter (λ kv, t ≤ expiry kv.2) (items w).
Proof.
  intros Hperm Hclk. apply map_eq. intros key.
  pose proof (RemoveExpired_in_spec entries w key Hperm) as S.
  rewrite Hclk in S. specialize (S (monotone_frozen t)). unfold frozen in S.
  destruct (items w !! key) as [i|] eqn:E.
  - destruct S as [S1 S2]. destruct (decide (t ≤ expiry i)) as [Hle|Hgt].
    + rewrite (S2 Hle). symmetry. by apply map_lookup_filter_Some.
    + rewrite S1 by lia. symmetry. apply map_lookup_filter_None.
      right. intros i' E'. assert (i' = i) as -> by congruence. cbn. lia.
  - rewrite S. symmetry. apply map_lookup_filter_None. by left.
Qed.

End sweep.

(** ** The test suite, replayed

    Each test of cache_test.go, run on a clock that moves by a hundred
    nanoseconds from one call to the next and jumps over each [time.Sleep]. *)

Example TestCacheSetAndGet_passes :
  result TestCacheSetAndGet
    (New (readings [0; 100; 200; 300] (6 * time.Second + 400)))
  = [true; true; true].
Proof. reflexivity. Qed.

Example TestCacheAdd_passes :
  result TestCacheAdd
    (New (readings [0; 100; 6 * time.Second + 200] (6 * time.Second + 300)))
  = [true; true; true].
Proof. reflexivity. Qed.

Example TestCacheReplace_passes :
  result TestCacheReplace
    (New (readings [0; 100; 200; 300] (6 * time.Second + 400)))
  = [true; true; true; true].
Proof. reflexivity. Qed.

Example TestCachePop_passes :
  result TestCachePop (New (running 0)) = [true; true].
Proof. reflexivity. Qed.

Example TestCacheRemove_passes :
  result TestCacheRemove (New (running 0)) = [true].
Proof. reflexivity. Qed.

Example TestCacheClear_passes :
  result TestCacheClear (New (running 0)) = [true; true].
Proof. reflexivity. Qed.

Example TestCacheRemoveExpired_passes :
  result TestCacheRemoveExpired
    (New (readings [0; 100] (2 * time.Second + 200)))
  = [true; true].
Proof. vm_compute. reflexivity. Qed.

Example README_error_message :
  Error id (ErrAlreadyExists "username") = "item username already exists".
Proof. reflexivity. Qed.

(** ** Where the code and its documented behaviour part *)

(** C1. [Get] and [Pop] on an expired entry delete it and report
    [found = false], but the value they return is the stored value of the
    dead entry, not the zero value: after [Set("key1", 100, 5s)] and a sleep
    of six seconds, both return [(100, false)]. *)
Theorem expired_value_is_returned :
  state_of w_dead "key1" = EXPIRED (Item 100 (5 * time.Second))
  ∧ result (Get "key1") w_dead = (100, false)
  ∧ items (after (Get "key1") w_dead) = ∅
  ∧ result (Pop "key1") w_dead = (100, false)
  ∧ items (after (Pop "key1") w_dead) = ∅
  ∧ (100 : Z) ≠ zero.
Proof. repeat split; (reflexivity || discriminate). Qed.

(** C2. [isExpired] compares with [After], which is strict: an entry whose
    expiry equals the clock reading is not expired. [Set] with a zero TTL
    followed by a [Get] that reads the same instant returns the value with
    [found = true], and on such a clock [TestCacheSetAndGet] fails its first
    condition. *)
Theorem zero_ttl_is_found_at_the_same_instant :
  expired_at (New (frozen 7) : World string Z) (Item 10 7) = false
  ∧ items (after (Set_ "key1" 10 (0 * time.Second)) (New (frozen 7)))
    = {[ "key1" := Item 10 7 ]}
  ∧ result (Get "key1")
      (after (Set_ "key1" 10 (0 * time.Second)) (New (frozen 7)))
    = (10, true)
  ∧ result TestCacheSetAndGet
      (New (readings [7; 7; 200; 300] (6 * time.Second + 400)))
    = [false; true; true].
Proof. repeat split. Qed.

(** C3. [Add] on a key whose entry has its expiry equal to the clock reading
    takes the entry for live: after [Set("key1", 500, 1s)] at instant 0,
    [Add("key1", 30, 5s)] called when the clock shows one second fails with
    the already-exists error and leaves the old entry in the map. *)
Theorem Add_refuses_entry_expiring_now :
  items w_two !! "key1" = Some (Item 500 (1 * time.Second))
  ∧ clock w_two 0%nat = 1 * time.Second
  ∧ result (Add "key1" 30 (5 * time.Second)) w_two
    = Some (ErrAlreadyExists "key1")
  ∧ items (after (Add "key1" 30 (5 * time.Second)) w_two) = items w_two
  ∧ Error id (ErrAlreadyExists "key1") = "item key1 already exists".
Proof. repeat split. Qed.

(** C4. [Replace] on a key whose entry has its expiry equal to the clock
    reading takes the entry for live: after [Set("key1", 500, 1s)] at
    instant 0, [Replace("key1", 60, 5s)] called when the clock shows one
    second returns no error and writes the new value with a new expiry,
    where an expired entry would be deleted and reported. *)
Theorem Replace_overwrites_entry_expiring_now :
  items w_two !! "key1" = Some (Item 500 (1 * time.Second))
  ∧ clock w_two 0%nat = 1 * time.Second
  ∧ result (Replace "key1" 60 (5 * time.Second)) w_two = None
  ∧ items (after (Replace "key1" 60 (5 * time.Second)) w_two) !! "key1"
    = Some (Item 60 (6 * time.Second)).
Proof. repeat split. Qed.

(** C7. [RemoveExpired] keeps an entry whose expiry equals the clock reading:
    after [Set("key1", 500, 1s)] and [Set("key2", 600, 10s)] at instant 0,
    called when the clock shows one second, it deletes nothing, and neither
    does a tick of the background sweeper. *)
Theorem RemoveExpired_keeps_entry_expiring_now :
  items w_two !! "key1" = Some (Item 500 (1 * time.Second))
  ∧ clock w_two = frozen (1 * time.Second)
  ∧ items (after RemoveExpired w_two) !! "key1"
    = Some (Item 500 (1 * time.Second))
  ∧ items (after RemoveExpired w_two) = items w_two
  ∧ items (after sweep_tick w_two) = items w_two.
Proof. repeat split; vm_compute; reflexivity. Qed.

(** ** Further properties: how the operations compose *)

Section composition.

Context {K : Type} {K_eq : EqDecision K} {K_count : Countable K}
        {V : Type} {V_zero : Zero V}.

Implicit Types (w : World K V) (key : K) (i : item V) (data : V).

Lemma world_eq w w' : items w = items w' → clock w = clock w' → w = w'.
Proof. destruct w, w'. cbn. by intros -> ->. Qed.

Lemma after_Remove_absent w key :
  items w !! key = None → after (Remove key) w = w.
Proof.
  intros E. apply world_eq; [|done].
  rewrite items_Remove. by apply delete_id.
Qed.

(** X1. [Set] followed by [Get] on the same key: [Set] takes the first clock
    reading and [Get] the second. If the second is not later than the first
    plus [ttl], [Get] returns the value just set with [found = true] and the
    map is the one [Set] left; otherwise [Get] reports [found = false] and
    the key is gone again. *)
Theorem Set_then_Get w key data ttl :
  let w1 := after (Set_ key data ttl) w in
  if bool_decide (clock w 1%nat ≤ clock w 0%nat + ttl)
  then result (Get key) w1 = (data, true)
       ∧ items (after (Get key) w1)
         = <[key := Item data (time.Add (clock w 0%nat) ttl)]> (items w)
  else (result (Get key) w1).2 = false
       ∧ items (after (Get key) w1) = base.delete key (items w).
Proof.
  intros w1.
  assert (items w1 !! key = Some (Item data (time.Add (clock w 0%nat) ttl)))
    as E by (unfold w1; rewrite items_Set; apply lookup_insert_eq).
  unfold result, after. rewrite (Get_found _ _ _ E).
  assert (expired_at w1 (Item data (time.Add (clock w 0%nat) ttl))
          = negb (bool_decide (clock w 1%nat ≤ clock w 0%nat + ttl))) as ->.
  { unfold expired_at, result. rewrite isExpired_run. cbn [fst expiry].
    unfold w1. rewrite clock_Set, clock_tick. unfold time.After, time.Add.
    case_bool_decide; case_bool_decide; (done || lia). }
  case_bool_decide; cbn [negb fst snd value].
  - split; [done|]. rewrite items_tick. unfold w1. by rewrite items_Set.
  - split; [done|]. rewrite items_delete, items_tick. unfold w1.
    rewrite items_Set. apply delete_insert_eq.
Qed.

(** X2. The last [Set] wins: two [Set]s on one key leave the map that the
    second alone would leave, with the expiry counted from the reading the
    second [Set] took; nothing of the first value or TTL remains. *)
Theorem Set_last_write_wins w key data1 ttl1 data2 ttl2 :
  items (after (Set_ key data2 ttl2) (after (Set_ key data1 ttl1) w))
  = <[key := Item data2 (time.Add (clock w 1%nat) ttl2)]> (items w).
Proof.
  rewrite !items_Set, clock_Set, clock_tick. apply insert_insert_eq.
Qed.

Lemma Set_other w key key' data ttl :
  key ≠ key' →
  items (after (Set_ key data ttl) w) !! key' = items w !! key'.
Proof. intros Hne. rewrite items_Set. by apply lookup_insert_ne. Qed.

Lemma delete_other w key key' :
  key ≠ key' →
  items (after (delete key) w) !! key' = items w !! key'.
Proof. intros Hne. rewrite items_delete. by apply lookup_delete_ne. Qed.

Lemma Add_other w key key' data ttl :
  key ≠ key' →
  items (after (Add key data ttl) w) !! key' = items w !! key'.
Proof.
  intros Hne. unfold after. destruct (items w !! key) as [i|] eqn:E.
  - rewrite (Add_found _ _ _ _ _ E). destruct (expired_at w i); cbn [snd].
    + by rewrite Set_other, delete_other, items_tick.
    + by rewrite items_tick.
  - rewrite (Add_absent _ _ _ _ E). cbn [snd]. by apply Set_other.
Qed.

Lemma Replace_other w key key' data ttl :
  key ≠ key' →
  items (after (Replace key data ttl) w) !! key' = items w !! key'.
Proof.
  intros Hne. unfold after. destruct (items w !! key) as [i|] eqn:E.
  - rewrite (Replace_found _ _ _ _ _ E). destruct (expired_at w i); cbn [snd].
    + by rewrite delete_other, items_tick.
    + by rewrite Set_other, items_tick.
  - by rewrite (Replace_absent _ _ _ _ E).
Qed.

Lemma Get_other w key key' :
  key ≠ key' →
  items (after (Get key) w) !! key' = items w !! key'.
Proof.
  intros Hne. unfold after. destruct (items w !! key) as [i|] eqn:E.
  - rewrite (Get_found _ _ _ E). destruct (expired_at w i); cbn [snd].
    + by rewrite delete_other, items_tick.
    + by rewrite items_tick.
  - by rewrite (Get_absent _ _ E).
Qed.

Lemma Pop_other w key key' :
  key ≠ key' →
  items (after (Pop key) w) !! key' = items w !! key'.
Proof.
  intros Hne. unfold after. destruct (items w !! key) as [i|] eqn:E.
  - rewrite (Pop_found _ _ _ E). cbn [snd].
    by rewrite items_tick, delete_other.
  - by rewrite (Pop_absent _ _ E).
Qed.

(** X3. The operations on one key never touch another key: after [Set],
    [Add], [Replace], [Get], [Pop] or [Remove] on [key], every other key has
    the entry (or the absence) it had before. *)
Theorem other_keys_untouched w key key' data ttl :
  key ≠ key' →
  items (after (Set_ key data ttl) w) !! key' = items w !! key'
  ∧ items (after (Add key data ttl) w) !! key' = items w !! key'
  ∧ items (after (Replace key data ttl) w) !! key' = items w !! key'
  ∧ items (after (Get key) w) !! key' = items w !! key'
  ∧ items (after (Pop key) w) !! key' = items w !! key'
  ∧ items (after (Remove key) w) !! key' = items w !! key'.
Proof.
  intros Hne. repeat split.
  - by apply Set_other.
  - by apply Add_other.
  - by apply Replace_other.
  - by apply Get_other.
  - by apply Pop_other.
  - by apply delete_other.
Qed.

(** X4. After [Remove] the key has no entry, whatever was there, so a [Get]
    that follows returns not-found; a second [Remove] changes nothing. *)
Theorem Remove_then_absent w key :
  items (after (Remove key) w) !! key = None
  ∧ result (Get key) (after (Remove key) w) = (zero, false)
  ∧ after (Remove key) (after (Remove key) w) = after (Remove key) w.
Proof.
  assert (items (after (Remove key) w) !! key = None) as E
    by (rewrite items_Remove; apply lookup_delete_eq).
  split; [done|]. split.
  - unfold result. by rewrite (Get_absent _ _ E).
  - by apply after_Remove_absent.
Qed.

(** X5. [Remove] on a key that has no entry takes no action: the store is
    the same afterwards. *)
Theorem Remove_missing_key_is_noop w key :
  items w !! key = None → Remove key w = (tt, w).
Proof.
  intros E. rewrite <- (after_Remove_absent w key E) at 2. reflexivity.
Qed.

(** X6. [Pop] is [Get] followed by [Remove]: on every store and clock the two
    return the same pair and leave the same store and clock. *)
Theorem Pop_is_Get_then_Remove w key :
  Pop key w = (x ← Get key; Remove key;; mret x) w.
Proof.
  assert ((x ← Get key; Remove key;; mret x) w
          = (result (Get key) w, after (Remove key) (after (Get key) w))) as ->.
  { rewrite bind_run, bind_run. reflexivity. }
  unfold result, after at 2. destruct (items w !! key) as [i|] eqn:E.
  - rewrite (Pop_found _ _ _ E), (Get_found _ _ _ E).
    destruct (expired_at w i); cbn [fst snd negb]; f_equal;
      apply world_eq; try done.
    rewrite items_Remove, items_delete, !items_tick, items_delete.
    by rewrite delete_delete_eq.
  - rewrite (Pop_absent _ _ E), (Get_absent _ _ E). cbn [fst snd].
    f_equal. symmetry. by apply after_Remove_absent.
Qed.

(** X7. [Get] and [Pop] report [found = true] with a value exactly when the
    key holds an entry with that value whose expiry is not earlier than the
    clock reading: neither ever reports a missing or an expired entry as
    found. *)
Theorem found_iff_live w key (v : V) :
  (result (Get key) w = (v, true)
     ↔ ∃ i, items w !! key = Some i ∧ value i = v ∧ clock w 0%nat ≤ expiry i)
  ∧ (result (Pop key) w = (v, true)
     ↔ ∃ i, items w !! key = Some i ∧ value i = v ∧ clock w 0%nat ≤ expiry i).
Proof.
  unfold result. destruct (items w !! key) as [i|] eqn:E.
  - rewrite (Pop_found _ _ _ E), (Get_found _ _ _ E).
    destruct (expired_at w i) eqn:X; cbn [fst snd negb].
    + apply expired_at_true in X.
      split; (split; [by intros [=]|]); intros (j & [= <-] & _ & Hle); lia.
    + apply expired_at_false in X.
      split; (split; [intros [= <-]; by exists i|]);
        by intros (j & [= <-] & <- & _).
  - rewrite (Pop_absent _ _ E), (Get_absent _ _ E). cbn [fst].
    split; (split; [by intros [=]|]); by intros (j & [=] & _).
Qed.

(** X8. A [Get] that reports [found = false] leaves the key without an
    entry: either there was none, or the expired one has been deleted. *)
Theorem Get_miss_leaves_absent w key :
  (result (Get key) w).2 = false →
  items (after (Get key) w) !! key = None.
Proof.
  unfold result, after. destruct (items w !! key) as [i|] eqn:E.
  - rewrite (Get_found _ _ _ E). destruct (expired_at w i); cbn [fst snd].
    + intros _. rewrite items_delete. apply lookup_delete_eq.
    + done.
  - by rewrite (Get_absent _ _ E).
Qed.

(** X9. [Add] and [Replace] are complementary: on any store and clock, [Add]
    on a key succeeds exactly when [Replace] on that key fails, whatever
    values and TTLs they are given. *)
Theorem Add_Replace_complementary w key data1 ttl1 data2 ttl2 :
  result (Add key data1 ttl1) w = None
  ↔ result (Replace key data2 ttl2) w ≠ None.
Proof.
  unfold result. destruct (items w !! key) as [i|] eqn:E.
  - rewrite (Add_found _ _ _ _ _ E), (Replace_found _ _ _ _ _ E).
    by destruct (expired_at w i).
  - by rewrite (Add_absent _ _ _ _ E), (Replace_absent _ _ _ _ E).
Qed.

(** X10. [Replace], [Get], [Pop] and [Remove] never create a key: the keys
    of the map afterwards are among the keys before. *)
Theorem no_key_created w key data ttl :
  dom (items (after (Replace key data ttl) w)) ⊆ dom (items w)
  ∧ dom (items (after (Get key) w)) ⊆ dom (items w)
  ∧ dom (items (after (Pop key) w)) ⊆ dom (items w)
  ∧ dom (items (after (Remove key) w)) ⊆ dom (items w).
Proof.
  assert (∀ m : gmap K (item V),
            (∀ k, items w !! k = None → m !! k = None) → dom m ⊆ dom (items w))
    as Hdom.
  { intros m Hm k. rewrite !elem_of_dom, <- !not_eq_None_Some. naive_solver. }
  repeat split; apply Hdom; intros k Ek;
    (destruct (decide (key = k)) as [->|Hne];
     [| by rewrite ?Replace_other, ?Get_other, ?Pop_other, ?delete_other ]).
  - unfold after. by rewrite (Replace_absent _ _ _ _ Ek).
  - unfold after. by rewrite (Get_absent _ _ Ek).
  - unfold after. by rewrite (Pop_absent _ _ Ek).
  - rewrite items_Remove. apply lookup_delete_eq.
Qed.

(** X11. [Add] on a free key followed by a second [Add] on it while the
    entry is live: the second fails with the already-exists error, and the
    map still holds the first value with the first expiry. *)
Theorem Add_twice w key data1 ttl1 data2 ttl2 :
  items w !! key = None →
  clock w 1%nat ≤ clock w 0%nat + ttl1 →
  let w1 := after (Add key data1 ttl1) w in
  result (Add key data1 ttl1) w = None
  ∧ result (Add key data2 ttl2) w1 = Some (ErrAlreadyExists key)
  ∧ items (after (Add key data2 ttl2) w1)
    = <[key := Item data1 (time.Add (clock w 0%nat) ttl1)]> (items w).
Proof.
  intros E Hle w1. unfold result, after in *.
  assert (w1 = after (Set_ key data1 ttl1) w) as Hw1
    by (unfold w1; by rewrite (Add_absent _ _ _ _ E)).
  rewrite (Add_absent _ _ _ _ E). split; [done|].
  assert (items w1 !! key = Some (Item data1 (time.Add (clock w 0%nat) ttl1)))
    as E1 by (rewrite Hw1, items_Set; apply lookup_insert_eq).
  rewrite (Add_found _ _ _ _ _ E1).
  assert (expired_at w1 (Item data1 (time.Add (clock w 0%nat) ttl1)) = false)
    as ->.
  { apply expired_at_false. rewrite Hw1, clock_Set, clock_tick.
    cbn [expiry]. unfold time.Add. lia. }
  cbn [fst snd]. split; [done|]. by rewrite items_tick, Hw1, items_Set.
Qed.

(** X12. [Set] followed by [Remove] on the same key leaves no trace of the
    write: the map is the one [Remove] alone would leave. *)
Theorem Set_then_Remove w key data ttl :
  items (after (Remove key) (after (Set_ key data ttl) w))
  = items (after (Remove key) w).
Proof. rewrite !items_Remove, items_Set. apply delete_insert_eq. Qed.

End composition.

(** [other_keys_untouched]: operations on ["key2"] leave ["key1"] alone. *)
Lemma other_keys_untouched_witness :
  "key2" ≠ "key1"
  ∧ items (after (Set_ "key2" 7 (1 * time.Second)) w_live) !! "key1"
    = items w_live !! "key1"
  ∧ items (after (Pop "key2") w_live) !! "key1" = items w_live !! "key1".
Proof.
  assert ("key2" ≠ "key1") as Hne by discriminate.
  split; [exact Hne|].
  pose proof (other_keys_untouched w_live "key2" "key1" 7
                (1 * time.Second) Hne) as (HSet & _ & _ & _ & HPop & _).
  exact (conj HSet HPop).
Defined.

(** [Remove_missing_key_is_noop] on a key that was never set. *)
Lemma Remove_missing_key_is_noop_witness :
  items w_live !! "key2" = None ∧ Remove "key2" w_live = (tt, w_live).
Proof.
  assert (items w_live !! "key2" = None) as E by reflexivity.
  exact (conj E (Remove_missing_key_is_noop w_live "key2" E)).
Defined.

(** [Get_miss_leaves_absent] on the expired entry of [w_dead]. *)
Lemma Get_miss_leaves_absent_witness :
  (result (Get "key1") w_dead).2 = false
  ∧ items (after (Get "key1") w_dead) !! "key1" = None.
Proof.
  assert ((result (Get "key1") w_dead).2 = false) as E by reflexivity.
  exact (conj E (Get_miss_leaves_absent w_dead "key1" E)).
Defined.

(** [Add_twice]: the first two calls of [TestCacheAdd]. *)
Lemma Add_twice_witness :
  result (Add "key1" 30 (5 * time.Second))
    (after (Add "key1" 20 (5 * time.Second)) (New (running 0)))
  = Some (ErrAlreadyExists "key1").
Proof.
  refine (proj1 (proj2 (Add_twice (New (running 0)) "key1"
                          20 (5 * time.Second) 30 (5 * time.Second) _ _))).
  - reflexivity.
  - vm_compute. discriminate.
Defined.

(** ** Further properties: the sweep and the fresh cache *)

Section sweeping.

Context {K : Type} {K_eq : EqDecision K} {K_count : Countable K}
        {V : Type} {V_zero : Zero V}.

Implicit Types (w : World K V) (key : K) (i : item V).
Implicit Types (entries : list (K * item V)) (clk : nat → time.Time).

(** The first loop reads the clock once per entry. *)
Lemma collect_clock entries : ∀ acc w (n : nat),
  clock (after (collect entries acc) w) n = clock w (length entries + n)%nat.
Proof.
  induction entries as [|[key i] rest IH]; intros acc w n; [done|].
  unfold after in *. cbn [collect].
  rewrite bind_run, isExpired_run. cbn [fst snd]. by rewrite IH.
Qed.

(** The second loop does not read it. *)
Lemma delete_each_clock (keys : list K) : ∀ w,
  clock (after (delete_each keys) w) = clock w.
Proof.
  induction keys as [|k rest IH]; intros w; [done|].
  unfold after in *. cbn [delete_each].
  rewrite bind_run, delete_run. cbn [fst snd]. by rewrite IH.
Qed.

Lemma RemoveExpired_in_clock entries w (n : nat) :
  clock (after (RemoveExpired_in entries) w) n
  = clock w (length entries + n)%nat.
Proof.
  unfold after, RemoveExpired_in. rewrite bind_run.
  pose proof (delete_each_clock (result (collect entries []) w)
                (after (collect entries []) w)) as E.
  unfold after, result in E. rewrite E.
  apply (collect_clock entries [] w n).
Qed.

Lemma RemoveExpired_in_subseteq entries w :
  items (after (RemoveExpired_in entries) w) ⊆ items w.
Proof.
  apply map_subseteq_spec. intros key i.
  rewrite RemoveExpired_in_lookup. by case_decide.
Qed.

(** An entry that no reading of the clock finds expired stays. *)
Lemma RemoveExpired_in_keeps entries w key i :
  entries ≡ₚ map_to_list (items w) →
  items w !! key = Some i →
  (∀ j : nat, clock w j ≤ expiry i) →
  items (after (RemoveExpired_in entries) w) !! key = Some i.
Proof.
  intros Hperm E Hle. rewrite RemoveExpired_in_lookup.
  rewrite decide_False; [done|].
  intros (j & i' & Hj & Hlt)%elem_of_found_expired.
  assert (i' = i) as ->.
  { apply list_elem_of_lookup_2 in Hj. rewrite Hperm in Hj.
    apply elem_of_map_to_list in Hj. congruence. }
  specialize (Hle j). lia.
Qed.


(** X13. [RemoveExpired] only deletes: whatever the clock and the order of
    iteration, every entry of the map afterwards was in the map before, with
    the same value and expiry. *)
Theorem RemoveExpired_only_deletes entries w :
  items (after (RemoveExpired_in entries) w) ⊆ items w
  ∧ items (after RemoveExpired w) ⊆ items w.
Proof.
  split; [apply RemoveExpired_in_subseteq|].
  apply (RemoveExpired_in_subseteq (map_to_list (items w)) w).
Qed.

(** An entry that none of the readings taken by the scan finds expired
    stays: the scan takes one reading per entry. *)
Lemma RemoveExpired_in_keeps_scan entries w key i :
  entries ≡ₚ map_to_list (items w) →
  items w !! key = Some i →
  (∀ j : nat, (j < length entries)%nat → clock w j ≤ expiry i) →
  items (after (RemoveExpired_in entries) w) !! key = Some i.
Proof.
  intros Hperm E Hle. rewrite RemoveExpired_in_lookup.
  rewrite decide_False; [done|].
  intros (j & i' & Hj & Hlt)%elem_of_found_expired.
  assert (i' = i) as ->.
  { apply list_elem_of_lookup_2 in Hj. rewrite Hperm in Hj.
    apply elem_of_map_to_list in Hj. congruence. }
  apply lookup_lt_Some in Hj. specialize (Hle j Hj). lia.
Qed.

(** While the scan reads the same instant [t] at each of its readings, it
    keeps the entries with [t ≤ expiry], in any order of iteration; what the
    clock shows after the scan does not matter. *)
Lemma RemoveExpired_in_constant_scan entries w t :
  entries ≡ₚ map_to_list (items w) →
  (∀ n : nat, (n < length entries)%nat → clock w n = t) →
  items (after (RemoveExpired_in entries) w)
  = filter (λ kv, t ≤ expiry kv.2) (items w).
Proof.
  intros Hperm Hclk. apply map_eq. intros key.
  assert (∀ k i, (k, i) ∈ entries ↔ items w !! k = Some i) as Hin.
  { intros k i. rewrite Hperm. apply elem_of_map_to_list. }
  rewrite RemoveExpired_in_lookup.
  destruct (decide (key ∈ found_expired (clock w) entries)) as [Hfound|Hnot].
  - apply elem_of_found_expired in Hfound as (j & i & Hj & Hlt).
    rewrite (Hclk j) in Hlt by by eapply lookup_lt_Some.
    apply list_elem_of_lookup_2, Hin in Hj.
    symmetry. apply map_lookup_filter_None. right.
    intros i' E'. assert (i' = i) as -> by congruence. cbn. lia.
  - destruct (items w !! key) as [i|] eqn:E.
    + symmetry. apply map_lookup_filter_Some. split; [done|]. cbn.
      destruct (decide (t ≤ expiry i)) as [|Hgt]; [done|]. exfalso.
      apply Hnot, elem_of_found_expired.
      apply Hin, list_elem_of_lookup in E as [j Hj].
      exists j, i. split; [done|].
      rewrite (Hclk j) by by eapply lookup_lt_Some. lia.
    + symmetry. apply map_lookup_filter_None. by left.
Qed.

(** X14. [RemoveExpired] on a clock that does not run backwards, in any
    order of iteration: an entry whose expiry is earlier than the first
    reading of the scan is deleted, and an entry whose expiry is later than
    the last reading of the scan is kept with its value and expiry. The scan
    takes one reading per entry, so its last reading is the one numbered
    [length entries - 1]. *)
Theorem RemoveExpired_selective entries w key i :
  entries ≡ₚ map_to_list (items w) →
  monotone (clock w) →
  items w !! key = Some i →
  (expiry i < clock w 0%nat →
     items (after (RemoveExpired_in entries) w) !! key = None)
  ∧ (clock w (length entries - 1)%nat < expiry i →
     items (after (RemoveExpired_in entries) w) !! key = Some i).
Proof.
  intros Hperm Hmono E. split.
  - pose proof (RemoveExpired_in_spec entries w key Hperm Hmono) as S.
    rewrite E in S. by destruct S as [S1 _].
  - intros Hlt. apply RemoveExpired_in_keeps_scan; [done..|].
    intros j Hj.
    pose proof (monotone_le (clock w) j (length entries - 1) Hmono). lia.
Qed.

(** X15. While the clock shows the same instant at every reading of the
    scan (one reading per entry), the result of [RemoveExpired] does not
    depend on the order in which [range] yields the entries; what the clock
    shows afterwards does not matter. *)
Theorem RemoveExpired_order_irrelevant entries1 entries2 w t :
  entries1 ≡ₚ map_to_list (items w) →
  entries2 ≡ₚ map_to_list (items w) →
  (∀ n : nat, (n < length entries1)%nat → clock w n = t) →
  items (after (RemoveExpired_in entries1) w)
  = items (after (RemoveExpired_in entries2) w).
Proof.
  intros H1 H2 Hclk.
  rewrite (RemoveExpired_in_constant_scan entries1 w t) by done.
  rewrite (RemoveExpired_in_constant_scan entries2 w t); [done..|].
  intros n Hn. apply Hclk.
  by rewrite (Permutation_length H1), <- (Permutation_length H2).
Qed.


End sweeping.

Section background.

Context {K : Type} {K_eq : EqDecision K} {K_count : Countable K}
        {V : Type} {V_zero : Zero V}.

Implicit Types (w : World K V) (key : K) (i : item V).
Implicit Types (range : nat → gmap K (item V) → list (K * item V)).

Lemma sweeper_S range (n : nat) w :
  after (sweeper range (S n)) w
  = after (sweeper (λ j, range (S j)) n) (after (sweep_with (range 0%nat)) w).
Proof. unfold after. cbn [sweeper]. by rewrite bind_run. Qed.

Lemma sweep_with_after range w :
  after (sweep_with (range 0%nat)) w
  = after (RemoveExpired_in (range 0%nat (items w))) w.
Proof. reflexivity. Qed.

Lemma sweeper_subseteq (n : nat) : ∀ range w,
  items (after (sweeper range n) w) ⊆ items w.
Proof.
  induction n as [|n IH]; intros range w; [done|].
  rewrite sweeper_S. etrans; [apply IH|].
  rewrite sweep_with_after. apply RemoveExpired_in_subseteq.
Qed.

(** X17. The background sweeper only deletes: after any number of ticks, in
    whatever order each tick iterates, every entry of the map was there
    before the first tick with the same value and expiry. *)
Theorem sweeper_only_deletes range (n : nat) w :
  items (after (sweeper range n) w) ⊆ items w.
Proof. apply sweeper_subseteq. Qed.

(** X18. The background sweeper, each tick iterating over the whole map in
    some order: an entry whose expiry is later than every reading of the
    clock survives any number of ticks unchanged; on a clock that does not
    run backwards, an entry whose expiry is earlier than the first reading
    is gone after the first tick and stays gone. *)
Theorem sweeper_selective range w key i :
  (∀ (j : nat) (m : gmap K (item V)), range j m ≡ₚ map_to_list m) →
  items w !! key = Some i →
  ((∀ j : nat, clock w j < expiry i) →
     ∀ n : nat, items (after (sweeper range n) w) !! key = Some i)
  ∧ (monotone (clock w) → expiry i < clock w 0%nat →
     ∀ n : nat, items (after (sweeper range (S n)) w) !! key = None).
Proof.
  intros Hrange E. split.
  - intros Hlt n. revert range w Hrange E Hlt.
    induction n as [|n IH]; intros range w Hrange E Hlt; [done|].
    rewrite sweeper_S. apply IH.
    + intros j m. apply Hrange.
    + rewrite sweep_with_after. apply RemoveExpired_in_keeps; [done..|].
      intros j. specialize (Hlt j). lia.
    + intros j. rewrite sweep_with_after, RemoveExpired_in_clock. apply Hlt.
  - intros Hmono Hlt n. rewrite sweeper_S.
    eapply lookup_weaken_None; [|apply sweeper_subseteq].
    rewrite sweep_with_after.
    pose proof (RemoveExpired_in_spec (range 0%nat (items w)) w key
                  (Hrange 0%nat (items w)) Hmono) as S.
    rewrite E in S. by apply S.
Qed.

(** X19. A cache fresh from [New] is empty: on every key [Get] and [Pop]
    return the zero value with [found = false] and [Replace] fails with the
    not-found error, all three leaving the store as it is; [Add] succeeds and
    the map then holds that one entry. *)
Theorem New_is_empty clk key (data : V) ttl :
  Get key (New clk) = ((zero, false), New clk)
  ∧ Pop key (New clk) = ((zero, false), New clk)
  ∧ Replace key data ttl (New clk) = (Some (ErrNotFound key), New clk)
  ∧ result (Add key data ttl) (New clk) = None
  ∧ items (after (Add key data ttl) (New clk))
    = {[ key := Item data (time.Add (clk 0%nat) ttl) ]}.
Proof.
  assert (items (New clk : World K V) !! key = None) as E
    by apply lookup_empty.
  rewrite (Get_absent _ _ E), (Pop_absent _ _ E), (Replace_absent _ _ _ _ E).
  unfold result, after. rewrite (Add_absent _ _ _ _ E). cbn [fst snd].
  repeat split.
Qed.

End background.

(** [RemoveExpired_selective]: one entry with expiry 5, scanned at instant
    0 by a clock that shows 10 afterwards. *)
Lemma RemoveExpired_selective_witness :
  items (after (RemoveExpired_in [("key1", Item 100 5)])
           (mkWorld {[ "key1" := Item 100 5 ]} (readings [0] 10)))
    !! "key1" = Some (Item 100 5).
Proof.
  refine (proj2 (RemoveExpired_selective [("key1", Item 100 5)]
                   (mkWorld {[ "key1" := Item 100 5 ]} (readings [0] 10))
                   "key1" (Item 100 5) _ _ _) _).
  - vm_compute. reflexivity.
  - intros [|n]; vm_compute; discriminate.
  - reflexivity.
  - reflexivity.
Defined.

(** [RemoveExpired_order_irrelevant]: the two entries of [w_two] in both
    orders, scanned at two seconds by a clock that moves on afterwards. *)
Lemma RemoveExpired_order_irrelevant_witness :
  items (after (RemoveExpired_in
                  [("key1", Item 500 (1 * time.Second));
                   ("key2", Item 600 (10 * time.Second))])
           (mkWorld (items w_two)
              (readings [2 * time.Second; 2 * time.Second]
                 (20 * time.Second))))
  = items (after (RemoveExpired_in
                  [("key2", Item 600 (10 * time.Second));
                   ("key1", Item 500 (1 * time.Second))])
           (mkWorld (items w_two)
              (readings [2 * time.Second; 2 * time.Second]
                 (20 * time.Second)))).
Proof.
  apply (RemoveExpired_order_irrelevant _ _ _ (2 * time.Second)).
  - vm_compute. reflexivity.
  - vm_compute. apply perm_swap.
  - intros [|[|n]] Hn; [reflexivity | reflexivity | cbn in Hn; lia].
Defined.


(** [sweeper_selective]: three ticks over [w_live] under a clock that stays
    at zero. *)
Lemma sweeper_selective_witness :
  items (after (sweeper (λ _, map_to_list) 3)
           (mkWorld (items w_live) (frozen 0))) !! "key1"
  = Some (Item 100 (5 * time.Second)).
Proof.
  refine (proj1 (sweeper_selective (λ _, map_to_list)
                   (mkWorld (items w_live) (frozen 0)) "key1"
                   (Item 100 (5 * time.Second)) _ _) _ 3%nat).
  - intros j m. reflexivity.
  - reflexivity.
  - intros j. reflexivity.
Defined.

Section dead_on_arrival.

Context {K : Type} {K_eq : EqDecision K} {K_count : Countable K}
        {V : Type} {V_zero : Zero V}.

(** X20. An entry written by [Set] with a negative TTL is never read back:
    on a clock that does not run backwards, the [Get] that follows reports
    [found = false] and deletes the entry again. *)
Theorem negative_ttl_is_never_found (w : World K V) key (data : V) ttl :
  monotone (clock w) →
  ttl < 0 →
  (result (Get key) (after (Set_ key data ttl) w)).2 = false
  ∧ items (after (Get key) (after (Set_ key data ttl) w))
    = base.delete key (items w).
Proof.
  intros Hmono Hneg.
  assert (items (after (Set_ key data ttl) w) !! key
          = Some (Item data (time.Add (clock w 0%nat) ttl))) as E
    by (rewrite items_Set; apply lookup_insert_eq).
  assert (expired_at (after (Set_ key data ttl) w)
            (Item data (time.Add (clock w 0%nat) ttl)) = true) as X.
  { apply expired_at_true. rewrite clock_Set, clock_tick. cbn [expiry].
    unfold time.Add. specialize (Hmono 0%nat). lia. }
  pose proof (Get_found _ _ _ E) as G. rewrite X in G. cbn [value] in G.
  split.
  - unfold result. by rewrite G.
  - transitivity (items (Get key (after (Set_ key data ttl) w)).2); [done|].
    rewrite G. cbn [snd]. rewrite items_delete, items_tick, items_Set.
    apply delete_insert_eq.
Qed.

End dead_on_arrival.

(** [negative_ttl_is_never_found] with a TTL of minus one second. *)
Lemma negative_ttl_is_never_found_witness :
  (result (Get "key1")
     (after (Set_ "key1" 10 (-1 * time.Second)) (New (running 0)))).2 = false.
Proof.
  refine (proj1 (negative_ttl_is_never_found (New (running 0)) "key1" 10
                   (-1 * time.Second) _ _)).
  - intros n. unfold New, running. cbn [clock]. lia.
  - reflexivity.
Defined.
